(** * Invoice / SMS matcher: the score recovery of [src/app.py]

    The program sends an invoice text and a payment SMS to a text
    generation service, and recovers a score 0..4 from the free text it
    answers ([match_invoice]); [process_and_display] wraps it with input
    validation and an exception handler.

    Python values are embedded as follows.
    - [str] is a sequence of Unicode code points: [list N].
    - [int] is [Z].
    - [re.search] results and the [for ... else] loop are [option]s.
    - The call to the service is an effect: a computation threads the
      log of requests sent so far and ends either with a value or with
      a raised exception. *)

From Stdlib Require Import List NArith ZArith Bool Lia String Ascii.
Import ListNotations.

(** ** Python strings *)

Module PyStr.

Local Open Scope N_scope.

Definition char := N.
Definition str := list char.

(** ASCII literals of the source, as code points. *)
Definition of_string (s : string) : str :=
  map N_of_ascii (list_ascii_of_string s).

Definition str_eqb (a b : str) : bool :=
  if list_eq_dec N.eq_dec a b then true else false.

(** [str.isspace] of one code point; it is the set [str.strip()] removes
    and the set [\s] matches in a [str] pattern. *)
Definition is_space (c : char) : bool :=
  ((9 <=? c) && (c <=? 13)) || ((28 <=? c) && (c <=? 32))
  || (c =? 0x85) || (c =? 0xA0) || (c =? 0x1680)
  || ((0x2000 <=? c) && (c <=? 0x200A))
  || (c =? 0x2028) || (c =? 0x2029) || (c =? 0x202F)
  || (c =? 0x205F) || (c =? 0x3000).

Fixpoint lstrip (s : str) : str :=
  match s with
  | [] => []
  | c :: r => if is_space c then lstrip r else s
  end.

Definition rstrip (s : str) : str := rev (lstrip (rev s)).

(** [s.strip()] *)
Definition strip (s : str) : str := rstrip (lstrip s).

Definition nl : char := 10.

(** [s.split(sep)] for a one-character separator; never the empty list. *)
Fixpoint split (sep : char) (s : str) : list str :=
  match s with
  | [] => [[]]
  | c :: r =>
      if c =? sep then [] :: split sep r
      else match split sep r with
           | l :: ls => (c :: l) :: ls
           | [] => [[c]]
           end
  end.

(** [str.lower()] of one code point.  Upper-case ASCII letters, U+0130
    (to "i" and a combining dot) and U+212A KELVIN SIGN (to "k") are the
    only code points whose lower case holds an ASCII character; every
    other code point stays outside ASCII when lowered and is left as it
    is here, which a test against an ASCII keyword cannot tell apart. *)
Definition lower_char (c : char) : str :=
  if (65 <=? c) && (c <=? 90) then [c + 32]
  else if c =? 0x130 then [0x69; 0x307]
  else if c =? 0x212A then [0x6B]
  else [c].

(** [s.lower()] *)
Definition lower (s : str) : str := flat_map lower_char s.

(** The characters of [p] found one by one at the head of [s], each
    compared by [same]; the rest of [s] when all are found. *)
Fixpoint match_prefix (same : char -> char -> bool) (p s : str) : option str :=
  match p, s with
  | [], _ => Some s
  | _ :: _, [] => None
  | a :: p', c :: s' =>
      if same a c then match_prefix same p' s' else None
  end.

(** [s.startswith(p)] *)
Definition startswith (p s : str) : bool :=
  match match_prefix N.eqb p s with
  | Some _ => true
  | None => false
  end.

(** [p in s] *)
Fixpoint contains (p s : str) : bool :=
  startswith p s ||
  match s with
  | [] => false
  | _ :: r => contains p r
  end.

End PyStr.

Import PyStr.

(** ** The two regular expressions of [match_invoice] *)

Module Re.

Local Open Scope N_scope.

(** Lower-case mapping of one code point as [re.IGNORECASE] applies it to
    the text (the simple mapping: one code point to one code point).
    Only its values on the letters of the pattern are observed. *)
Definition tolower (c : char) : char :=
  if (65 <=? c) && (c <=? 90) then c + 32
  else if c =? 0x130 then 0x69
  else if c =? 0x212A then 0x6B
  else c.

(** Whether a character of the (ASCII) pattern has a case. *)
Definition iscased (p : char) : bool :=
  ((65 <=? p) && (p <=? 90)) || ((97 <=? p) && (p <=? 122)).

(** Code points [re] treats as the same letter as a lower-case ASCII
    letter: dotless i for "i", long s for "s". *)
Definition fixes (lo : char) : list char :=
  if lo =? 0x69 then [0x131]
  else if lo =? 0x73 then [0x17F]
  else [].

(** One literal [p] of an IGNORECASE pattern against the character [c]. *)
Definition literal_ignorecase (p c : char) : bool :=
  if iscased p
  then existsb (N.eqb (tolower c)) (tolower p :: fixes (tolower p))
  else c =? p.

(** A run of literals at the head of [s]; the rest of [s] when it matches. *)
Definition literals_ignorecase (p s : str) : option str :=
  match_prefix literal_ignorecase p s.

(** The class [[0-4]]. *)
Definition in_0_4 (c : char) : bool := (48 <=? c) && (c <=? 52).

Definition FINAL_SCORE : str := of_string "FINAL SCORE:".

(** [FINAL SCORE:\s*([0-4])] anchored at the head of [s]; the result is
    group 1.  [\s*] is greedy, and giving back white space never helps
    since no white space is in [[0-4]]: skipping all of it is exact. *)
Definition match_final_score (s : str) : option char :=
  match literals_ignorecase FINAL_SCORE s with
  | Some r =>
      match lstrip r with
      | d :: _ => if in_0_4 d then Some d else None
      | [] => None
      end
  | None => None
  end.

(** [re.search(r"FINAL SCORE:\s*([0-4])", s, re.IGNORECASE)]: the match
    at the leftmost position that has one. *)
Fixpoint search_final_score (s : str) : option char :=
  match match_final_score s with
  | Some d => Some d
  | None =>
      match s with
      | [] => None
      | _ :: r => search_final_score r
      end
  end.

(** [re.search(r"[0-4]", line)] *)
Definition search_digit (line : str) : option char := find in_0_4 line.

End Re.

(** [int(d)] of one decimal digit. *)
Definition int_of_digit (d : char) : Z := (Z.of_N d - 48)%Z.

(** ** Score recovery (lines 89 to 107 of [match_invoice]) *)

Definition keywords : list str :=
  [of_string "score"; of_string "final"; of_string "result"].

(** [any(keyword in line.lower() for keyword in [...])] *)
Definition has_keyword (line : str) : bool :=
  existsb (fun keyword => contains keyword (lower line)) keywords.

(** The [for line in reversed(lines)] loop, on the lines in the order the
    loop visits them.  [Some d] is the [break]; [None] is the loop running
    to its end, which the [else] clause of the loop turns into the
    default. *)
Fixpoint scan_lines (ls : list str) : option char :=
  match ls with
  | [] => None
  | line :: rest =>
      if has_keyword line then
        match Re.search_digit line with
        | Some d => Some d
        | None => scan_lines rest
        end
      else scan_lines rest
  end.

(** Which branch assigned [score]; not a value of the program, recorded
    to state which extraction path produced a score. *)
Inductive path := Primary | Fallback | Default.

Definition extract (text : str) : path * Z :=
  match Re.search_final_score text with
  | Some d => (Primary, int_of_digit d)
  | None =>
      match scan_lines (rev (split nl text)) with
      | Some d => (Fallback, int_of_digit d)
      | None => (Default, 0%Z)
      end
  end.

(** From the text of the reply to [(score, text)]. *)
Definition parse (narrative : str) : Z * str :=
  let text := strip narrative in
  (snd (extract text), text).

(** ** The call to the text generation service *)

(** An exception of class [Exception], as far as the program looks at it:
    [str(e)]. *)
Record exn := Exception { message : str }.

(** An exception that is an instance of [BaseException] and not of
    [Exception] ([KeyboardInterrupt], [SystemExit], [GeneratorExit]):
    [except Exception] does not catch it. *)
Record base_exn := BaseException { base_message : str }.

Inductive outcome (A : Type) : Type :=
| Returned (a : A)
| Raised (e : exn)
| RaisedBase (b : base_exn).

Arguments Returned {A} a.
Arguments Raised {A} e.
Arguments RaisedBase {A} b.

(** The list [[prompt, image_text, sms_text]] handed to
    [model.generate_content]. *)
Record request := Request {
  req_prompt : str;
  req_image_text : str;
  req_sms_text : str
}.

(** A computation: from the requests sent so far to an outcome and the
    requests sent by its end. *)
Definition M (A : Type) : Type := list request -> outcome A * list request.

Definition ret {A} (a : A) : M A := fun calls => (Returned a, calls).

Definition bind {A B} (m : M A) (k : A -> M B) : M B :=
  fun calls =>
    match m calls with
    | (Returned a, calls') => k a calls'
    | (Raised e, calls') => (Raised e, calls')
    | (RaisedBase b, calls') => (RaisedBase b, calls')
    end.

(** [try: m  except Exception as e: handler e]; an exception outside
    class [Exception] passes through the handler. *)
Definition try_except {A} (m : M A) (handler : exn -> M A) : M A :=
  fun calls =>
    match m calls with
    | (Returned a, calls') => (Returned a, calls')
    | (Raised e, calls') => handler e calls'
    | (RaisedBase b, calls') => (RaisedBase b, calls')
    end.

Declare Scope py_scope.
Delimit Scope py_scope with py.
Notation "x <- c1 ;; c2" := (bind c1 (fun x => c2))
  (at level 100, c1 at next level, right associativity) : py_scope.

(** [not s] for a string. *)
Definition falsy (s : str) : bool :=
  match s with
  | [] => true
  | _ :: _ => false
  end.

Definition validation_message : str :=
  of_string "Please provide both an invoice text and SMS text.".

Definition error_prefix : str := of_string "Error processing: ".

Section Service.

(** The instruction template of [match_invoice], a constant f-string
    without placeholders. *)
Variable prompt : str.

(** The service: what [model.generate_content(...)] followed by
    [resp.text] does for a request, given the requests it has already
    seen: the text of the reply, an exception of class [Exception], or
    an exception outside that class. *)
Variable model : list request -> request -> outcome str.

Definition generate_content_text (req : request) : M str :=
  fun calls => (model calls req, calls ++ [req]).

Definition match_invoice (image_text sms_text : str) : M (Z * str) :=
  (resp_text <- generate_content_text (Request prompt image_text sms_text) ;;
   ret (parse resp_text))%py.

Definition process_and_display (invoice_text sms_text : str) : M (Z * str) :=
  if falsy (strip invoice_text) || falsy (strip sms_text)
  then ret (0%Z, validation_message)
  else
    try_except
      (r <- match_invoice invoice_text sms_text ;;
       ret (fst r, snd r))%py
      (fun e => ret (0%Z, error_prefix ++ message e)).

End Service.

(** Two behaviours of the service that ignore the request. *)
Definition model_replies (text : str) : list request -> request -> outcome str :=
  fun _ _ => Returned text.

Definition model_raises (msg : str) : list request -> request -> outcome str :=
  fun _ _ => Raised (Exception msg).

(** The call interrupted: an exception outside class [Exception]. *)
Definition model_interrupted (msg : str)
  : list request -> request -> outcome str :=
  fun _ _ => RaisedBase (BaseException msg).

(** ** The fallback as the specification words it *)

Module SpecWording.

Local Open Scope N_scope.

Definition is_digit (c : char) : bool := (48 <=? c) && (c <=? 57).

(** The first standalone digit in range 0 to 4 of a line: a character
    ["0"] to ["4"] with no decimal digit right before or right after it.
    [after_digit] tells whether the character before [s] was a digit. *)
Fixpoint first_standalone (after_digit : bool) (s : str) : option char :=
  match s with
  | [] => None
  | c :: r =>
      let before_digit :=
        match r with
        | n :: _ => is_digit n
        | [] => false
        end in
      if Re.in_0_4 c && negb after_digit && negb before_digit then Some c
      else first_standalone (is_digit c) r
  end.

(** The reverse scan, taking on each keyword line its first standalone
    digit. *)
Fixpoint scan_standalone (ls : list str) : option char :=
  match ls with
  | [] => None
  | line :: rest =>
      if has_keyword line then
        match first_standalone false line with
        | Some d => Some d
        | None => scan_standalone rest
        end
      else scan_standalone rest
  end.

Definition fallback_score (narrative : str) : Z :=
  match scan_standalone (rev (split nl narrative)) with
  | Some d => int_of_digit d
  | None => 0%Z
  end.

End SpecWording.

(** ** Scoring Rule Engine *)

Module ScoringRuleEngine.

(** Modelled from the spec: the FieldSet of the Scoring Rule Engine.
    [src/app.py] has no function that compares fields: the rubric is
    text of the prompt, applied by the service.  Amounts are taken in a
    common minor unit, dates as (year, month, day). *)
Record FieldSet := {
  amount : option Z;
  date : option (Z * Z * Z);
  party_name : option str;
  identifiers : list str
}.

(** Modelled from the spec: amount_match, true iff both amounts are
    present and equal; absent on either side is a non-match. *)
Definition amount_match (invoice sms : FieldSet) : bool :=
  match amount invoice, amount sms with
  | Some a, Some b => Z.eqb a b
  | _, _ => false
  end.

(** Modelled from the spec: the same calendar day. *)
Definition date_eqb (a b : Z * Z * Z) : bool :=
  let '(y1, m1, d1) := a in
  let '(y2, m2, d2) := b in
  Z.eqb y1 y2 && Z.eqb m1 m2 && Z.eqb d1 d2.

(** Modelled from the spec: date_match, true iff both dates are present
    and are the same calendar day. *)
Definition date_match (invoice sms : FieldSet) : bool :=
  match date invoice, date sms with
  | Some a, Some b => date_eqb a b
  | _, _ => false
  end.

(** Modelled from the spec: white space collapsed; runs of white space
    become one blank, none is kept at either end. *)
Fixpoint collapse_from (pending : bool) (s : str) : str :=
  match s with
  | [] => []
  | c :: r =>
      if is_space c then collapse_from true r
      else if pending then 32%N :: c :: collapse_from false r
      else c :: collapse_from false r
  end.

(** Modelled from the spec: a name up to case and white space; case is
    folded as [lower] folds it, which covers the ASCII letters. *)
Definition normalize_name (s : str) : str :=
  collapse_from false (lstrip (lower s)).

(** Modelled from the spec: name_match, true iff both names are present
    and equal under case-insensitive, whitespace-collapsed comparison. *)
Definition name_match (invoice sms : FieldSet) : bool :=
  match party_name invoice, party_name sms with
  | Some a, Some b => str_eqb (normalize_name a) (normalize_name b)
  | _, _ => false
  end.

(** Modelled from the spec: identifier_match, true iff the two sets of
    identifiers intersect after case-insensitive normalization. *)
Definition identifier_match (invoice sms : FieldSet) : bool :=
  existsb (fun i => existsb (str_eqb (lower i)) (map lower (identifiers sms)))
          (identifiers invoice).

(** Modelled from the spec: the score assignment, strict and ordered; a
    tier is reached only through the ones below it. *)
Definition tier (a d n i : bool) : Z :=
  if negb a then 0
  else if negb (d || n) then 1
  else if negb (d && n) then 2
  else if negb i then 3
  else 4.

(** Modelled from the spec: ComparisonResult, the four flags and the
    score; the rationale string of each flag is left out. *)
Record ComparisonResult := {
  amount_flag : bool;
  date_flag : bool;
  name_flag : bool;
  identifier_flag : bool;
  result_score : Z
}.

(** Modelled from the spec: score(invoice, sms). *)
Definition score (invoice sms : FieldSet) : ComparisonResult :=
  let a := amount_match invoice sms in
  let d := date_match invoice sms in
  let n := name_match invoice sms in
  let i := identifier_match invoice sms in
  {| amount_flag := a; date_flag := d; name_flag := n;
     identifier_flag := i; result_score := tier a d n i |}.

(** The end-to-end scenarios of the specification: amount 500.00, due
    2024-05-01, name Jane Doe; without identifiers, with the identifier
    INV123 on both sides, and with 450.00 credited. *)
Definition jane_invoice : FieldSet :=
  {| amount := Some 50000%Z; date := Some (2024, 5, 1)%Z;
     party_name := Some (of_string "Jane Doe"); identifiers := [] |}.

Definition jane_sms : FieldSet :=
  {| amount := Some 50000%Z; date := Some (2024, 5, 1)%Z;
     party_name := Some (of_string "Jane Doe"); identifiers := [] |}.

Definition jane_invoice_id : FieldSet :=
  {| amount := Some 50000%Z; date := Some (2024, 5, 1)%Z;
     party_name := Some (of_string "Jane Doe");
     identifiers := [of_string "INV123"] |}.

Definition jane_sms_id : FieldSet :=
  {| amount := Some 50000%Z; date := Some (2024, 5, 1)%Z;
     party_name := Some (of_string "Jane Doe");
     identifiers := [of_string "INV123"] |}.

Definition jane_sms_450 : FieldSet :=
  {| amount := Some 45000%Z; date := Some (2024, 5, 1)%Z;
     party_name := Some (of_string "Jane Doe");
     identifiers := [of_string "INV123"] |}.

End ScoringRuleEngine.

(** ** Vocabulary of the statements *)

Definition all_space (s : str) : Prop := forallb is_space s = true.

(** [lit] spells [p]: as long as [p], each character accepted by [same]
    for the character of [p] at its place. *)
Definition spells (same : char -> char -> bool) (p lit : str) : Prop :=
  Forall2 (fun a c => same a c = true) p lit.

(** The last character of [p], when there is one, accepts no white
    space. *)
Fixpoint closes_nonspace (same : char -> char -> bool) (p : str) : Prop :=
  match p with
  | [] => True
  | a :: p' =>
      match p' with
      | [] => forall c, is_space c = true -> same a c = false
      | _ :: _ => closes_nonspace same p'
      end
  end.

(** [c] is the pattern character [a], or its lower-case form when [a]
    is an upper-case ASCII letter. *)
Definition same_letter (a c : char) : Prop :=
  c = a \/ ((65 <= a <= 90)%N /\ c = (a + 32)%N).

(** An occurrence of the primary pattern: "FINAL SCORE:" in any case,
    white space (possibly none), a digit 0 to 4. *)
Record occurrence (lit ws : str) (d : char) : Prop := {
  occ_literal : spells Re.literal_ignorecase Re.FINAL_SCORE lit;
  occ_space : all_space ws;
  occ_digit : Re.in_0_4 d = true
}.

(** A line with the primary pattern followed by the single digit [d]:
    an occurrence on the line, with no decimal digit right after [d]. *)
Definition final_score_line (line : str) (d : char) : Prop :=
  exists a lit ws b,
    line = a ++ lit ++ ws ++ d :: b /\ occurrence lit ws d /\
    forall c, hd_error b = Some c -> SpecWording.is_digit c = false.

(** Whatever line of the narrative holds the primary pattern with a
    single digit, that digit is the score. *)
Definition score_of_any_final_score_line : Prop :=
  forall narrative line d,
    In line (split nl narrative) -> final_score_line line d ->
    fst (parse narrative) = int_of_digit d.

(** The primary pattern occurs somewhere in [s]. *)
Definition primary_present (s : str) : Prop :=
  exists pre lit ws d post,
    s = pre ++ lit ++ ws ++ d :: post /\ occurrence lit ws d.

(** No occurrence of the primary pattern starts within the first [n]
    characters of [s]. *)
Definition none_starts_before (n : nat) (s : str) : Prop :=
  forall pre lit ws d post,
    s = pre ++ lit ++ ws ++ d :: post -> occurrence lit ws d ->
    (n <= List.length pre)%nat.

(** A keyword: it starts and ends with a character that is no white
    space. *)
Definition plain (kw : str) : Prop :=
  match kw with
  | [] => False
  | a :: _ => is_space a = false /\ closes_nonspace N.eqb kw
  end.

(** [c] is the keyword character [k], a lower-case ASCII letter, or its
    upper-case form. *)
Definition keyword_letter (k c : char) : Prop :=
  (97 <= k <= 122)%N /\ (c = k \/ (c + 32)%N = k).

(** What one line gives the fallback loop: the first character 0 to 4 of
    a line that holds a keyword. *)
Definition hit (line : str) : option char :=
  if has_keyword line then Re.search_digit line else None.

(** A line that does not stop the fallback loop: it holds no keyword, or
    no character 0 to 4. *)
Definition silent (line : str) : Prop :=
  has_keyword line = true -> Forall (fun c => Re.in_0_4 c = false) line.


(** The operation ends with a response, whatever the documents and
    whatever the service does. *)
Definition always_responds : Prop :=
  forall prompt model invoice_text sms_text calls,
    exists score report calls',
      process_and_display prompt model invoice_text sms_text calls =
      (Returned (score, report), calls').

(** ** Sample narratives *)

Definition two_scores_sample : str :=
  of_string "FINAL SCORE: 10" ++ [nl] ++ of_string "FINAL SCORE: 3".

Definition result_line : str :=
  of_string "Result line: the final score is 3 out of 4".

Definition fallback_example : str :=
  of_string "Amount Match: Yes" ++ [nl] ++ result_line ++ [nl].

Definition primary_sample : str :=
  of_string "ok" ++ [nl] ++ of_string "Final score:  2" ++ [nl] ++
  of_string "score 4?".

Definition year_sample : str :=
  of_string "Result for invoice 2024: score 3".

Definition pending_sample : str :=
  of_string "score: 2" ++ [nl] ++ of_string "final result pending".

Definition silent_sample : str := of_string "No verdict." ++ [nl].

Definition trailing_newline_sample : str :=
  of_string "FINAL SCORE: 3" ++ [nl].

Definition blank_sample : str := [32; 10; 9; 10]%N.

Definition mixed_case_sample : str :=
  of_string "Verdict. fInAl ScOrE:" ++ [nl] ++ of_string " 1 (of 4)".

Definition keyword_sample : str := of_string "Preliminary RESULTS follow".

(** * Properties *)

Example parse_fallback_example :
  parse fallback_example =
  (3%Z, of_string "Amount Match: Yes" ++ [nl] ++
        of_string "Result line: the final score is 3 out of 4").
Proof. vm_compute. reflexivity. Qed.

Example parse_primary_example :
  fst (parse (of_string "final Score:  4")) = 4%Z.
Proof. vm_compute. reflexivity. Qed.

(** ** White space and [strip] *)

Lemma is_space_spec c :
  is_space c = true <->
  (9 <= c <= 13 \/ 28 <= c <= 32 \/ c = 0x85 \/ c = 0xA0 \/ c = 0x1680 \/
   0x2000 <= c <= 0x200A \/ c = 0x2028 \/ c = 0x2029 \/ c = 0x202F \/
   c = 0x205F \/ c = 0x3000)%N.
Proof.
  unfold is_space.
  rewrite !orb_true_iff, !andb_true_iff, !N.leb_le, !N.eqb_eq. tauto.
Qed.

Lemma all_space_nil : all_space [].
Proof. reflexivity. Qed.

Lemma all_space_cons c s :
  all_space (c :: s) <-> is_space c = true /\ all_space s.
Proof. unfold all_space; simpl. apply andb_true_iff. Qed.

Lemma all_space_app a b :
  all_space (a ++ b) <-> all_space a /\ all_space b.
Proof.
  unfold all_space. rewrite forallb_app. apply andb_true_iff.
Qed.

Lemma all_space_rev s : all_space s -> all_space (rev s).
Proof.
  unfold all_space. rewrite !forallb_forall.
  intros H x Hx. apply H. now apply in_rev.
Qed.

Lemma lstrip_split s :
  exists pre, s = pre ++ lstrip s /\ all_space pre.
Proof.
  induction s as [|c s [pre [E P]]]; simpl.
  - exists []. split; [reflexivity | apply all_space_nil].
  - destruct (is_space c) eqn:Hc.
    + exists (c :: pre). split.
      * simpl. now rewrite <- E.
      * now apply all_space_cons.
    + exists []. split; [reflexivity | apply all_space_nil].
Qed.

Lemma rstrip_split s :
  exists suf, s = rstrip s ++ suf /\ all_space suf.
Proof.
  unfold rstrip.
  destruct (lstrip_split (rev s)) as [pre [E P]].
  exists (rev pre). split.
  - rewrite <- rev_app_distr, <- E. now rewrite rev_involutive.
  - now apply all_space_rev.
Qed.

Lemma strip_split s :
  exists pre suf, s = pre ++ strip s ++ suf /\ all_space pre /\ all_space suf.
Proof.
  destruct (lstrip_split s) as [pre [E P]].
  destruct (rstrip_split (lstrip s)) as [suf [E' S]].
  exists pre, suf. unfold strip. now rewrite <- E', <- E.
Qed.

Lemma lstrip_all_space ws s :
  all_space ws -> lstrip (ws ++ s) = lstrip s.
Proof.
  induction ws as [|c ws IH]; intros H; simpl; [reflexivity|].
  apply all_space_cons in H as [Hc H]. rewrite Hc. now apply IH.
Qed.

Lemma lstrip_head c s : is_space c = false -> lstrip (c :: s) = c :: s.
Proof. intros H; simpl. now rewrite H. Qed.

(** ** Digits *)

Lemma in_0_4_not_space d : Re.in_0_4 d = true -> is_space d = false.
Proof.
  unfold Re.in_0_4. intros H.
  apply andb_true_iff in H as [H1 H2].
  apply N.leb_le in H1, H2.
  destruct (is_space d) eqn:E; [|reflexivity].
  apply is_space_spec in E. lia.
Qed.

Lemma int_of_digit_range d :
  Re.in_0_4 d = true -> (0 <= int_of_digit d <= 4)%Z.
Proof.
  unfold Re.in_0_4, int_of_digit. intros H.
  apply andb_true_iff in H as [H1 H2].
  apply N.leb_le in H1, H2. lia.
Qed.

Lemma match_final_score_digit s d :
  Re.match_final_score s = Some d -> Re.in_0_4 d = true.
Proof.
  unfold Re.match_final_score.
  destruct (Re.literals_ignorecase Re.FINAL_SCORE s) as [r|]; [|discriminate].
  destruct (lstrip r) as [|c r']; [discriminate|].
  destruct (Re.in_0_4 c) eqn:E; [|discriminate].
  now intros [= <-].
Qed.

Lemma search_final_score_digit s d :
  Re.search_final_score s = Some d -> Re.in_0_4 d = true.
Proof.
  induction s as [|c s IH]; simpl.
  - discriminate.
  - destruct (Re.match_final_score (c :: s)) eqn:E.
    + intros [= <-]. eapply match_final_score_digit; eauto.
    + exact IH.
Qed.

Lemma search_digit_digit line d :
  Re.search_digit line = Some d -> Re.in_0_4 d = true.
Proof. intros H. now apply find_some in H. Qed.

Lemma scan_lines_digit ls d :
  scan_lines ls = Some d -> Re.in_0_4 d = true.
Proof.
  induction ls as [|l ls IH]; simpl; [discriminate|].
  destruct (has_keyword l); [|exact IH].
  destruct (Re.search_digit l) eqn:E; [|exact IH].
  intros [= <-]. eapply search_digit_digit; eauto.
Qed.


(** ** Prefix matching *)

Section MatchPrefix.

Variable same : char -> char -> bool.

Lemma match_prefix_spells p lit r :
  spells same p lit -> match_prefix same p (lit ++ r) = Some r.
Proof.
  induction 1 as [|a c p lit Hac _ IH]; simpl; [reflexivity|].
  now rewrite Hac.
Qed.

Lemma match_prefix_inv p : forall s r,
  match_prefix same p s = Some r ->
  exists lit, s = lit ++ r /\ spells same p lit.
Proof.
  induction p as [|a p IH]; intros s r; simpl.
  - intros [= <-]. exists []. split; [reflexivity | constructor].
  - destruct s as [|c s]; [discriminate|].
    destruct (same a c) eqn:Hac; [|discriminate].
    intros H. destruct (IH _ _ H) as [lit [-> Hl]].
    exists (c :: lit). split; [reflexivity | now constructor].
Qed.

Lemma closes_nonspace_tail a p :
  closes_nonspace same (a :: p) -> closes_nonspace same p.
Proof. destruct p; simpl; auto. Qed.

Lemma match_prefix_spaces p : forall ws,
  closes_nonspace same p -> p <> [] -> all_space ws ->
  match_prefix same p ws = None.
Proof.
  induction p as [|a p IH]; intros ws Hp Hne Hws; [congruence|].
  destruct ws as [|c ws]; [reflexivity|].
  apply all_space_cons in Hws as [Hc Hws]. simpl.
  destruct (same a c) eqn:Hac; [|reflexivity].
  destruct p as [|b p].
  - simpl in Hp. rewrite (Hp c Hc) in Hac. discriminate.
  - apply IH; [exact Hp | discriminate | exact Hws].
Qed.

Lemma match_prefix_app_spaces p : forall s ws,
  closes_nonspace same p -> all_space ws ->
  match_prefix same p (s ++ ws) =
  option_map (fun r => r ++ ws) (match_prefix same p s).
Proof.
  induction p as [|a p IH]; intros s ws Hp Hws; [reflexivity|].
  destruct s as [|c s].
  - simpl app. rewrite match_prefix_spaces; auto. discriminate.
  - simpl. destruct (same a c); [|reflexivity].
    apply IH; [eapply closes_nonspace_tail; eauto | exact Hws].
Qed.

End MatchPrefix.

(** ** The primary pattern *)

Lemma lstrip_app_spaces r ws :
  all_space ws ->
  lstrip (r ++ ws) = match lstrip r with [] => [] | _ :: _ => lstrip r ++ ws end.
Proof.
  intros Hws. induction r as [|c r IH]; simpl.
  - rewrite <- (app_nil_r ws). now rewrite lstrip_all_space.
  - destruct (is_space c); [exact IH | reflexivity].
Qed.

(** The pattern accepts "FINAL SCORE:" in upper case, in lower case and
    in any mix of the two. *)
Lemma literal_ignorecase_same_letter a c :
  In a Re.FINAL_SCORE -> same_letter a c -> Re.literal_ignorecase a c = true.
Proof.
  intros Hin [->|[Hr ->]]; cbv in Hin.
  - repeat (destruct Hin as [<-|Hin]; [reflexivity|]). destruct Hin.
  - repeat (destruct Hin as [<-|Hin]; [reflexivity || lia|]). destruct Hin.
Qed.

Lemma spells_same_letter lit :
  Forall2 same_letter Re.FINAL_SCORE lit ->
  spells Re.literal_ignorecase Re.FINAL_SCORE lit.
Proof.
  intros H. unfold spells.
  assert (G : forall p, incl p Re.FINAL_SCORE -> forall l,
              Forall2 same_letter p l ->
              Forall2 (fun a c => Re.literal_ignorecase a c = true) p l).
  { intros p Hp l F. induction F as [|a c p l Hac _ IH]; constructor.
    - apply literal_ignorecase_same_letter; [apply Hp; now left | exact Hac].
    - apply IH. intros x Hx. apply Hp. now right. }
  apply (G _ (incl_refl _) _ H).
Qed.

Lemma match_final_score_occurrence lit ws d post :
  occurrence lit ws d ->
  Re.match_final_score (lit ++ ws ++ d :: post) = Some d.
Proof.
  intros [Hl Hw Hd]. unfold Re.match_final_score, Re.literals_ignorecase.
  rewrite (match_prefix_spells _ _ _ _ Hl).
  rewrite lstrip_all_space by exact Hw.
  rewrite lstrip_head by now apply in_0_4_not_space.
  now rewrite Hd.
Qed.

Lemma match_final_score_inv s d :
  Re.match_final_score s = Some d ->
  exists lit ws post, s = lit ++ ws ++ d :: post /\ occurrence lit ws d.
Proof.
  unfold Re.match_final_score, Re.literals_ignorecase.
  destruct (match_prefix Re.literal_ignorecase Re.FINAL_SCORE s) as [r|] eqn:E;
    [|discriminate].
  destruct (match_prefix_inv _ _ _ _ E) as [lit [-> Hl]].
  destruct (lstrip_split r) as [ws [Er Hws]].
  destruct (lstrip r) as [|c post]; [discriminate|].
  destruct (Re.in_0_4 c) eqn:Hc; [|discriminate].
  intros [= <-]. exists lit, ws, post. split.
  - now rewrite Er at 1.
  - now constructor.
Qed.

Lemma search_final_score_cons c s :
  Re.search_final_score (c :: s) =
  match Re.match_final_score (c :: s) with
  | Some d => Some d
  | None => Re.search_final_score s
  end.
Proof. reflexivity. Qed.

Lemma search_final_score_skip pre : forall rest,
  (forall p1 p2, pre = p1 ++ p2 -> p2 <> [] ->
                 Re.match_final_score (p2 ++ rest) = None) ->
  Re.search_final_score (pre ++ rest) = Re.search_final_score rest.
Proof.
  induction pre as [|c pre IH]; intros rest H; [reflexivity|].
  simpl app. rewrite search_final_score_cons.
  assert (H0 : Re.match_final_score (c :: pre ++ rest) = None)
    by (apply (H [] (c :: pre)); [reflexivity | discriminate]).
  rewrite H0. apply IH. intros p1 p2 -> Hp2. apply (H (c :: p1) p2); auto.
Qed.

Lemma search_final_score_here s d :
  Re.match_final_score s = Some d -> Re.search_final_score s = Some d.
Proof.
  intros H. destruct s as [|c s].
  - vm_compute in H. discriminate.
  - now rewrite search_final_score_cons, H.
Qed.

Lemma search_final_score_inv s : forall d,
  Re.search_final_score s = Some d ->
  exists pre rest, s = pre ++ rest /\ Re.match_final_score rest = Some d.
Proof.
  induction s as [|c s IH]; intros d; simpl.
  - discriminate.
  - destruct (Re.match_final_score (c :: s)) eqn:E.
    + intros [= <-]. exists [], (c :: s). auto.
    + intros H. destruct (IH _ H) as [pre [rest [-> Hm]]].
      exists (c :: pre), rest. auto.
Qed.

Lemma search_final_score_none s :
  Re.search_final_score s = None ->
  forall pre rest, s = pre ++ rest -> Re.match_final_score rest = None.
Proof.
  induction s as [|c s IH]; simpl.
  - intros _ pre rest E. symmetry in E. apply app_eq_nil in E as [_ ->].
    reflexivity.
  - destruct (Re.match_final_score (c :: s)) eqn:E; [discriminate|].
    intros H pre rest Es. destruct pre as [|c' pre].
    + simpl in Es. now subst rest.
    + injection Es as _ Es. eapply IH; eauto.
Qed.

(** The search finds a match exactly when the pattern occurs. *)
Lemma search_final_score_present s :
  primary_present s <-> exists d, Re.search_final_score s = Some d.
Proof.
  split.
  - intros (pre & lit & ws & d & post & -> & Ho).
    destruct (Re.search_final_score (pre ++ lit ++ ws ++ d :: post)) eqn:E.
    + eauto.
    + pose proof (search_final_score_none _ E pre _ eq_refl) as H.
      rewrite (match_final_score_occurrence _ _ _ post Ho) in H. discriminate.
  - intros [d H].
    destruct (search_final_score_inv _ _ H) as [pre [rest [-> Hm]]].
    destruct (match_final_score_inv _ _ Hm) as (lit & ws & post & -> & Ho).
    now exists pre, lit, ws, d, post.
Qed.

(** The search returns the digit of the occurrence that starts first. *)
Lemma search_final_score_leftmost pre lit ws d post :
  occurrence lit ws d ->
  none_starts_before (List.length pre) (pre ++ lit ++ ws ++ d :: post) ->
  Re.search_final_score (pre ++ lit ++ ws ++ d :: post) = Some d.
Proof.
  intros Ho Hleft.
  rewrite search_final_score_skip.
  - apply search_final_score_here. now apply match_final_score_occurrence.
  - intros p1 p2 -> Hp2.
    destruct (Re.match_final_score (p2 ++ lit ++ ws ++ d :: post)) as [d'|] eqn:E;
      [|reflexivity].
    destruct (match_final_score_inv _ _ E) as (lit' & ws' & post' & E' & Ho').
    specialize (Hleft p1 lit' ws' d' post').
    rewrite <- app_assoc, E' in Hleft. specialize (Hleft eq_refl Ho').
    rewrite List.length_app in Hleft. destruct p2; [congruence | simpl in Hleft; lia].
Qed.

(** ** The primary pattern and [strip] *)

Lemma tolower_space c : is_space c = true -> Re.tolower c = c.
Proof.
  intros H. apply is_space_spec in H. unfold Re.tolower.
  destruct (N.leb_spec 65%N c), (N.leb_spec c 90%N); simpl; try lia;
    destruct (N.eqb_spec c 0x130%N); try lia;
    destruct (N.eqb_spec c 0x212A%N); try lia; reflexivity.
Qed.

Lemma colon_closes :
  closes_nonspace Re.literal_ignorecase Re.FINAL_SCORE.
Proof.
  cbn. intros c Hc. unfold Re.literal_ignorecase. cbn.
  destruct (N.eqb_spec c 58%N) as [->|]; [discriminate Hc | reflexivity].
Qed.

Lemma match_final_score_space c s :
  is_space c = true -> Re.match_final_score (c :: s) = None.
Proof.
  intros Hc. unfold Re.match_final_score, Re.literals_ignorecase.
  change Re.FINAL_SCORE with (70%N :: tl Re.FINAL_SCORE).
  cbn [match_prefix].
  assert (Re.literal_ignorecase 70%N c = false) as ->; [|reflexivity].
  unfold Re.literal_ignorecase. cbn. rewrite (tolower_space _ Hc).
  destruct (N.eqb_spec c 102%N) as [->|]; [discriminate Hc | reflexivity].
Qed.

Lemma match_final_score_app_spaces s ws :
  all_space ws -> Re.match_final_score (s ++ ws) = Re.match_final_score s.
Proof.
  intros Hws. unfold Re.match_final_score, Re.literals_ignorecase.
  rewrite match_prefix_app_spaces by (auto using colon_closes).
  destruct (match_prefix Re.literal_ignorecase Re.FINAL_SCORE s) as [r|];
    [|reflexivity].
  simpl. rewrite lstrip_app_spaces by exact Hws.
  destruct (lstrip r); reflexivity.
Qed.

Lemma search_final_score_spaces_app ws s :
  all_space ws -> Re.search_final_score (ws ++ s) = Re.search_final_score s.
Proof.
  induction ws as [|c ws IH]; intros H; [reflexivity|].
  apply all_space_cons in H as [Hc H]. simpl app.
  rewrite search_final_score_cons, match_final_score_space by exact Hc.
  now apply IH.
Qed.

Lemma search_final_score_app_spaces s ws :
  all_space ws -> Re.search_final_score (s ++ ws) = Re.search_final_score s.
Proof.
  intros Hws. induction s as [|c s IH].
  - rewrite <- (app_nil_r ([] ++ ws)). simpl app at 2.
    now rewrite search_final_score_spaces_app.
  - simpl app. rewrite !search_final_score_cons.
    change (c :: s ++ ws) with ((c :: s) ++ ws).
    rewrite match_final_score_app_spaces by exact Hws. now rewrite IH.
Qed.

(** Stripping the narrative changes nothing for the primary search. *)
Lemma search_final_score_strip s :
  Re.search_final_score (strip s) = Re.search_final_score s.
Proof.
  destruct (strip_split s) as (pre & suf & E & Hp & Hs).
  rewrite E at 2.
  rewrite search_final_score_spaces_app by exact Hp.
  now rewrite search_final_score_app_spaces.
Qed.

(** ** Keywords, digits and white space on one line *)

Lemma search_digit_spaces_app ws l :
  all_space ws -> Re.search_digit (ws ++ l) = Re.search_digit l.
Proof.
  unfold Re.search_digit.
  induction ws as [|c ws IH]; intros H; [reflexivity|].
  apply all_space_cons in H as [Hc H]. simpl.
  destruct (Re.in_0_4 c) eqn:E; [|now apply IH].
  apply in_0_4_not_space in E. congruence.
Qed.

Lemma search_digit_all_space ws :
  all_space ws -> Re.search_digit ws = None.
Proof.
  intros H. rewrite <- (app_nil_r ws).
  now rewrite search_digit_spaces_app.
Qed.

Lemma search_digit_app_spaces l ws :
  all_space ws -> Re.search_digit (l ++ ws) = Re.search_digit l.
Proof.
  intros H. induction l as [|c l IH].
  - now apply search_digit_all_space.
  - unfold Re.search_digit in *. simpl. now rewrite IH.
Qed.

Lemma lower_char_space c : is_space c = true -> lower_char c = [c].
Proof.
  intros H. apply is_space_spec in H. unfold lower_char.
  destruct (N.leb_spec 65%N c), (N.leb_spec c 90%N); simpl; try lia;
    destruct (N.eqb_spec c 0x130%N); try lia;
    destruct (N.eqb_spec c 0x212A%N); try lia; reflexivity.
Qed.

Lemma lower_all_space ws : all_space ws -> lower ws = ws.
Proof.
  induction ws as [|c ws IH]; intros H; [reflexivity|].
  apply all_space_cons in H as [Hc H]. unfold lower in *. simpl.
  now rewrite lower_char_space, IH.
Qed.

Lemma lower_app a b : lower (a ++ b) = lower a ++ lower b.
Proof. apply flat_map_app. Qed.

Lemma contains_cons p c s :
  contains p (c :: s) = startswith p (c :: s) || contains p s.
Proof. reflexivity. Qed.

Lemma contains_spaces_app a kw ws s :
  is_space a = false -> all_space ws ->
  contains (a :: kw) (ws ++ s) = contains (a :: kw) s.
Proof.
  intros Ha. induction ws as [|c ws IH]; intros H; [reflexivity|].
  apply all_space_cons in H as [Hc H]. simpl app.
  rewrite contains_cons, IH by exact H.
  unfold startswith. simpl.
  destruct (N.eqb_spec a c) as [->|]; [congruence | reflexivity].
Qed.

Lemma startswith_app_spaces kw s ws :
  closes_nonspace N.eqb kw -> all_space ws ->
  startswith kw (s ++ ws) = startswith kw s.
Proof.
  intros Hk Hws. unfold startswith.
  rewrite match_prefix_app_spaces by assumption.
  destruct (match_prefix N.eqb kw s); reflexivity.
Qed.

Lemma contains_app_spaces a kw s ws :
  is_space a = false -> closes_nonspace N.eqb (a :: kw) -> all_space ws ->
  contains (a :: kw) (s ++ ws) = contains (a :: kw) s.
Proof.
  intros Ha Hk Hws. induction s as [|c s IH].
  - rewrite <- (app_nil_r ([] ++ ws)). simpl app at 2.
    now rewrite contains_spaces_app.
  - simpl app. rewrite !contains_cons, IH.
    change (c :: s ++ ws) with ((c :: s) ++ ws).
    now rewrite startswith_app_spaces.
Qed.

Lemma nonspace_accepts_no_space a :
  is_space a = false -> forall c, is_space c = true -> (a =? c)%N = false.
Proof.
  intros Ha c Hc. destruct (N.eqb_spec a c) as [->|]; [congruence | reflexivity].
Qed.

Lemma keywords_plain : Forall plain keywords.
Proof.
  unfold keywords. repeat apply Forall_cons; try apply Forall_nil.
  - split; [reflexivity | exact (nonspace_accepts_no_space 101%N eq_refl)].
  - split; [reflexivity | exact (nonspace_accepts_no_space 108%N eq_refl)].
  - split; [reflexivity | exact (nonspace_accepts_no_space 116%N eq_refl)].
Qed.

Lemma existsb_agree {A} (f g : A -> bool) l :
  (forall x, In x l -> f x = g x) -> existsb f l = existsb g l.
Proof.
  induction l as [|x l IH]; intros H; simpl; [reflexivity|].
  rewrite (H x) by now left. rewrite IH; [reflexivity|].
  intros y Hy. apply H. now right.
Qed.

Lemma has_keyword_spaces_app ws l :
  all_space ws -> has_keyword (ws ++ l) = has_keyword l.
Proof.
  intros H. unfold has_keyword.
  rewrite lower_app, (lower_all_space ws H).
  apply existsb_agree. intros kw Hkw.
  pose proof keywords_plain as P. rewrite Forall_forall in P.
  specialize (P kw Hkw). destruct kw as [|a kw]; [contradiction|].
  destruct P as [Ha _]. now apply contains_spaces_app.
Qed.

Lemma has_keyword_app_spaces l ws :
  all_space ws -> has_keyword (l ++ ws) = has_keyword l.
Proof.
  intros H. unfold has_keyword.
  rewrite lower_app, (lower_all_space ws H).
  apply existsb_agree. intros kw Hkw.
  pose proof keywords_plain as P. rewrite Forall_forall in P.
  specialize (P kw Hkw). destruct kw as [|a kw]; [contradiction|].
  destruct P as [Ha Hk]. now apply contains_app_spaces.
Qed.

Lemma hit_spaces_app ws l : all_space ws -> hit (ws ++ l) = hit l.
Proof.
  intros H. unfold hit.
  now rewrite has_keyword_spaces_app, search_digit_spaces_app.
Qed.

Lemma hit_app_spaces l ws : all_space ws -> hit (l ++ ws) = hit l.
Proof.
  intros H. unfold hit.
  now rewrite has_keyword_app_spaces, search_digit_app_spaces.
Qed.

Lemma hit_all_space ws : all_space ws -> hit ws = None.
Proof.
  intros H. unfold hit. rewrite search_digit_all_space by exact H.
  now destruct (has_keyword ws).
Qed.

(** ** Lines *)

Lemma split_not_nil sep s : split sep s <> [].
Proof.
  destruct s as [|c s]; simpl; [discriminate|].
  destruct (c =? sep)%N; [discriminate|].
  destruct (split sep s); discriminate.
Qed.

(** The lines of [a ++ b]: the last line of [a] and the first line of [b]
    are one line. *)
Lemma split_app sep a b :
  exists init la hb tb,
    split sep a = init ++ [la] /\ split sep b = hb :: tb /\
    split sep (a ++ b) = init ++ (la ++ hb) :: tb.
Proof.
  induction a as [|c a (init & la & hb & tb & Ea & Eb & Eab)].
  - destruct (split sep b) as [|hb tb] eqn:E; [now apply split_not_nil in E|].
    exists [], [], hb, tb. simpl. rewrite E. auto.
  - simpl. rewrite Ea, Eab. destruct (c =? sep)%N.
    + exists ([] :: init), la, hb, tb. auto.
    + destruct init as [|i init]; simpl.
      * exists [], (c :: la), hb, tb. auto.
      * exists ((c :: i) :: init), la, hb, tb. auto.
Qed.

Lemma split_all_space sep ws :
  all_space ws -> Forall all_space (split sep ws).
Proof.
  induction ws as [|c ws IH]; intros H; simpl.
  - repeat constructor.
  - apply all_space_cons in H as [Hc H]. specialize (IH H).
    destruct (c =? sep)%N.
    + constructor; [apply all_space_nil | exact IH].
    + destruct (split sep ws) as [|l ls].
      * repeat constructor. now apply all_space_cons.
      * inversion IH; subst. constructor; [now apply all_space_cons | assumption].
Qed.

(** ** The fallback loop *)

Lemma scan_lines_cons l r :
  scan_lines (l :: r) =
  match hit l with
  | Some d => Some d
  | None => scan_lines r
  end.
Proof.
  unfold hit. simpl. destruct (has_keyword l); [|reflexivity].
  destruct (Re.search_digit l); reflexivity.
Qed.

Lemma scan_lines_app a b :
  scan_lines (a ++ b) =
  match scan_lines a with
  | Some d => Some d
  | None => scan_lines b
  end.
Proof.
  induction a as [|l a IH]; [reflexivity|].
  simpl app. rewrite !scan_lines_cons. destruct (hit l); [reflexivity | exact IH].
Qed.

Lemma scan_lines_all_space ls :
  Forall all_space ls -> scan_lines ls = None.
Proof.
  induction 1 as [|l ls Hl _ IH]; [reflexivity|].
  now rewrite scan_lines_cons, hit_all_space.
Qed.

Lemma Forall_rev_all_space ls :
  Forall all_space ls -> Forall all_space (rev ls).
Proof.
  rewrite !Forall_forall. intros H x Hx. apply H. now apply in_rev.
Qed.

Lemma scan_lines_spaces_app ws x :
  all_space ws ->
  scan_lines (rev (split nl (ws ++ x))) = scan_lines (rev (split nl x)).
Proof.
  intros H.
  destruct (split_app nl ws x) as (init & la & hb & tb & Ea & Eb & Eab).
  pose proof (split_all_space nl ws H) as Hsp. rewrite Ea in Hsp.
  apply Forall_app in Hsp as [Hinit Hla]. inversion Hla; subst.
  rewrite Eab, Eb, rev_app_distr. simpl rev.
  rewrite !scan_lines_app, !scan_lines_cons.
  rewrite hit_spaces_app by assumption.
  destruct (scan_lines (rev tb)); [reflexivity|].
  destruct (hit hb); [reflexivity|]. simpl.
  now rewrite scan_lines_all_space by now apply Forall_rev_all_space.
Qed.

Lemma scan_lines_app_spaces x ws :
  all_space ws ->
  scan_lines (rev (split nl (x ++ ws))) = scan_lines (rev (split nl x)).
Proof.
  intros H.
  destruct (split_app nl x ws) as (init & la & hb & tb & Ea & Eb & Eab).
  pose proof (split_all_space nl ws H) as Hsp. rewrite Eb in Hsp.
  inversion Hsp; subst.
  rewrite Eab, Ea, !rev_app_distr. simpl rev.
  rewrite !scan_lines_app, !scan_lines_cons.
  rewrite hit_app_spaces by assumption.
  rewrite scan_lines_all_space by now apply Forall_rev_all_space.
  simpl. reflexivity.
Qed.

(** Stripping the narrative changes nothing for the fallback loop. *)
Lemma scan_lines_strip s :
  scan_lines (rev (split nl (strip s))) = scan_lines (rev (split nl s)).
Proof.
  destruct (strip_split s) as (pre & suf & E & Hp & Hs).
  rewrite E at 2.
  rewrite scan_lines_spaces_app by exact Hp.
  now rewrite scan_lines_app_spaces.
Qed.

Lemma extract_strip s : extract (strip s) = extract s.
Proof.
  unfold extract. now rewrite search_final_score_strip, scan_lines_strip.
Qed.

Lemma primary_absent_iff s :
  ~ primary_present s <-> Re.search_final_score s = None.
Proof.
  rewrite search_final_score_present. split.
  - intros H. destruct (Re.search_final_score s) as [d|]; [|reflexivity].
    exfalso. apply H. now exists d.
  - intros -> [d H]. discriminate.
Qed.

Lemma none_starts_before_check n s :
  (forall k, (k < n)%nat -> Re.match_final_score (skipn k s) = None) ->
  none_starts_before n s.
Proof.
  intros H pre lit ws d post E Ho.
  destruct (le_lt_dec n (List.length pre)) as [Hle|Hlt]; [exact Hle|].
  exfalso. specialize (H _ Hlt). rewrite E in H.
  rewrite skipn_app, skipn_all, Nat.sub_diag in H. simpl in H.
  rewrite (match_final_score_occurrence _ _ _ post Ho) in H. discriminate.
Qed.

Lemma no_digit_search line :
  Forall (fun c => Re.in_0_4 c = false) line -> Re.search_digit line = None.
Proof.
  unfold Re.search_digit. induction 1 as [|c l Hc _ IH]; simpl; [reflexivity|].
  now rewrite Hc.
Qed.

Lemma search_digit_none line :
  Re.search_digit line = None -> Forall (fun c => Re.in_0_4 c = false) line.
Proof.
  unfold Re.search_digit. intros H. apply Forall_forall. intros c Hc.
  exact (find_none _ _ H c Hc).
Qed.

(** [re.search] with [[0-4]] returns the first character of the class. *)
Lemma first_digit_search p d q :
  Forall (fun c => Re.in_0_4 c = false) p -> Re.in_0_4 d = true ->
  Re.search_digit (p ++ d :: q) = Some d.
Proof.
  unfold Re.search_digit. induction 1 as [|c l Hc _ IH]; intros Hd; simpl.
  - now rewrite Hd.
  - rewrite Hc. now apply IH.
Qed.

Lemma silent_hit line : silent line <-> hit line = None.
Proof.
  unfold silent, hit. destruct (has_keyword line).
  - split.
    + intros H. now apply no_digit_search, H.
    + intros H _. now apply search_digit_none.
  - split; [reflexivity | discriminate].
Qed.

Lemma scan_lines_none ls :
  scan_lines ls = None <-> Forall silent ls.
Proof.
  induction ls as [|l ls IH].
  - split; [constructor | reflexivity].
  - rewrite scan_lines_cons. split.
    + destruct (hit l) eqn:E; [discriminate|]. intros H.
      constructor; [now apply silent_hit | now apply IH].
    + intros H. inversion H as [|? ? Hl Hls]; subst.
      apply silent_hit in Hl. rewrite Hl. now apply IH.
Qed.

Lemma scan_lines_rev_none ls :
  scan_lines (rev ls) = None <-> Forall silent ls.
Proof.
  rewrite scan_lines_none, !Forall_forall.
  split; intros H x Hx; apply H; [now apply -> in_rev | now apply in_rev].
Qed.

(** The loop over the reversed lines: lines after a line that stops it
    are passed over, lines before it are not reached. *)
Lemma scan_lines_stops before line after d :
  hit line = Some d -> Forall silent after ->
  scan_lines (rev (before ++ line :: after)) = Some d.
Proof.
  intros Hl Ha. rewrite rev_app_distr. simpl rev.
  rewrite <- app_assoc, scan_lines_app.
  apply scan_lines_rev_none in Ha. rewrite Ha. simpl app.
  now rewrite scan_lines_cons, Hl.
Qed.

Lemma scan_lines_passes before line after :
  silent line -> Forall silent after ->
  scan_lines (rev (before ++ line :: after)) = scan_lines (rev before).
Proof.
  intros Hl Ha. rewrite rev_app_distr. simpl rev.
  rewrite <- app_assoc, scan_lines_app.
  apply scan_lines_rev_none in Ha. rewrite Ha. simpl app.
  apply silent_hit in Hl. now rewrite scan_lines_cons, Hl.
Qed.

Lemma strip_nil_iff s : strip s = [] <-> all_space s.
Proof.
  split.
  - intros E. destruct (strip_split s) as (pre & suf & Es & Hp & Hs).
    rewrite Es, E. simpl. now apply all_space_app.
  - intros H. unfold strip.
    rewrite <- (app_nil_r s), lstrip_all_space by exact H. reflexivity.
Qed.

Lemma falsy_strip s : falsy (strip s) = true <-> all_space s.
Proof.
  rewrite <- strip_nil_iff. destruct (strip s); simpl; split; congruence.
Qed.

(** ** What the string operations compute *)

Lemma lstrip_starts s :
  forall c, hd_error (lstrip s) = Some c -> is_space c = false.
Proof.
  induction s as [|a s IH]; simpl; [discriminate|].
  destruct (is_space a) eqn:E; [exact IH|].
  simpl. now intros c [= <-].
Qed.

Lemma rstrip_ends s :
  forall c, hd_error (rev (rstrip s)) = Some c -> is_space c = false.
Proof.
  unfold rstrip. rewrite rev_involutive. apply lstrip_starts.
Qed.

Lemma rstrip_starts s :
  (forall c, hd_error s = Some c -> is_space c = false) ->
  forall c, hd_error (rstrip s) = Some c -> is_space c = false.
Proof.
  intros Hs c Hc. destruct (rstrip_split s) as [suf [E _]].
  destruct (rstrip s) as [|a r]; [discriminate|].
  injection Hc as ->. apply Hs. now rewrite E.
Qed.

(** [strip] leaves white space at neither end. *)
Lemma strip_ends s :
  (forall c, hd_error (strip s) = Some c -> is_space c = false) /\
  (forall c, hd_error (rev (strip s)) = Some c -> is_space c = false).
Proof.
  unfold strip. split.
  - apply rstrip_starts, lstrip_starts.
  - apply rstrip_ends.
Qed.

Lemma spells_eqb p lit : spells N.eqb p lit -> lit = p.
Proof.
  induction 1 as [|a c p lit Hac _ IH]; [reflexivity|].
  apply N.eqb_eq in Hac. now subst.
Qed.

Lemma spells_eqb_refl p : spells N.eqb p p.
Proof. induction p; constructor; [apply N.eqb_refl | assumption]. Qed.

Lemma startswith_spec p s :
  startswith p s = true <-> exists b, s = p ++ b.
Proof.
  unfold startswith. split.
  - destruct (match_prefix N.eqb p s) as [r|] eqn:E; [|discriminate].
    intros _. destruct (match_prefix_inv _ _ _ _ E) as [lit [-> Hl]].
    apply spells_eqb in Hl. subst. now exists r.
  - intros [b ->].
    now rewrite (match_prefix_spells _ _ _ b (spells_eqb_refl p)).
Qed.

Lemma contains_here p s : startswith p s = true -> contains p s = true.
Proof. intros H. destruct s; simpl; now rewrite H. Qed.

(** [p in s] holds exactly when [p] is a contiguous part of [s]. *)
Lemma contains_spec p s :
  contains p s = true <-> exists a b, s = a ++ p ++ b.
Proof.
  split.
  - induction s as [|c s IH]; simpl.
    + rewrite orb_false_r. intros H. apply startswith_spec in H as [b E].
      now exists [], b.
    + intros H. apply orb_true_iff in H as [H|H].
      * apply startswith_spec in H as [b E]. now exists [], b.
      * destruct (IH H) as (a & b & ->). now exists (c :: a), b.
  - intros (a & b & ->). induction a as [|c a IH].
    + apply contains_here, startswith_spec. now exists b.
    + simpl app. rewrite contains_cons, IH. apply orb_true_r.
Qed.

(** A line holds a keyword when its lower-case form has "score", "final"
    or "result" as a contiguous part. *)
Lemma has_keyword_spec line :
  has_keyword line = true <->
  exists kw a b, In kw keywords /\ lower line = a ++ kw ++ b.
Proof.
  unfold has_keyword. rewrite existsb_exists. split.
  - intros (kw & Hin & H). apply contains_spec in H as (a & b & E).
    now exists kw, a, b.
  - intros (kw & a & b & Hin & E). exists kw. split; [exact Hin|].
    apply contains_spec. now exists a, b.
Qed.

(** The lines of a text hold no newline, and joined by newlines they
    give the text back. *)
Lemma split_lines_spec s :
  Forall (fun line => ~ In nl line) (split nl s) /\
  List.concat (map (fun line => nl :: line) (split nl s)) = nl :: s.
Proof.
  induction s as [|c s [IH1 IH2]]; simpl.
  - split; [repeat constructor; intros [] | reflexivity].
  - destruct (N.eqb_spec c nl) as [->|Hc].
    + split; [constructor; [intros [] | exact IH1] |].
      simpl. now rewrite IH2.
    + destruct (split nl s) as [|l ls]; [discriminate IH2|].
      inversion IH1 as [|? ? Hl Hls]; subst. split.
      * constructor; [|exact Hls]. intros [E|E]; [congruence | contradiction].
      * simpl in *. injection IH2 as <-. reflexivity.
Qed.

(** * The parser *)

Lemma parse_unfold narrative :
  parse narrative = (snd (extract narrative), strip narrative).
Proof. unfold parse. cbv zeta. now rewrite extract_strip. Qed.

(** C2, as amended. Primary extraction: when "FINAL SCORE:" (in any
    case), optional white space and a digit 0 to 4 occur in the
    narrative, and no such occurrence starts earlier, the score is that
    digit, whatever follows it, and it comes from the primary branch; the
    fallback loop has no part in it. *)
Theorem primary_extraction narrative pre lit ws d post :
  narrative = pre ++ lit ++ ws ++ d :: post ->
  occurrence lit ws d ->
  none_starts_before (List.length pre) narrative ->
  parse narrative = (int_of_digit d, strip narrative) /\
  fst (extract (strip narrative)) = Primary.
Proof.
  intros -> Ho Hleft.
  rewrite parse_unfold, extract_strip. unfold extract.
  now rewrite (search_final_score_leftmost _ _ _ _ _ Ho Hleft).
Qed.

Lemma primary_extraction_witness :
  parse primary_sample = (2%Z, primary_sample) /\
  fst (extract (strip primary_sample)) = Primary.
Proof.
  apply (primary_extraction primary_sample
           (of_string "ok" ++ [nl]) (of_string "Final score:")
           (of_string "  ") 50%N ([nl] ++ of_string "score 4?")).
  - reflexivity.
  - constructor; [repeat constructor | reflexivity | reflexivity].
  - apply none_starts_before_check. intros k Hk.
    do 3 (destruct k as [|k]; [vm_compute; reflexivity|]).
    simpl in Hk. lia.
Defined.

(** C2, as stated, fails: of two lines with the pattern the search
    takes the first, and there the first digit even when more digits
    follow; the single digit of the second line is not the score. *)
Lemma score_not_of_any_final_score_line : ~ score_of_any_final_score_line.
Proof.
  intros H.
  specialize (H two_scores_sample (of_string "FINAL SCORE: 3") 51%N).
  assert (Hin : In (of_string "FINAL SCORE: 3") (split nl two_scores_sample))
    by (right; left; reflexivity).
  assert (Hline : final_score_line (of_string "FINAL SCORE: 3") 51%N).
  { exists [], (of_string "FINAL SCORE:"), [32%N], []. repeat split.
    - repeat constructor.
    - discriminate.
  }
  specialize (H Hin Hline). vm_compute in H. discriminate.
Qed.

Example two_scores_sample_score :
  fst (parse two_scores_sample) = 1%Z /\
  fst (extract (strip two_scores_sample)) = Primary.
Proof. split; vm_compute; reflexivity. Qed.

(** Whenever the pattern occurs at all, the primary branch assigns the
    score. *)
Lemma primary_fires narrative :
  primary_present narrative <-> fst (extract (strip narrative)) = Primary.
Proof.
  rewrite extract_strip, search_final_score_present. unfold extract.
  destruct (Re.search_final_score narrative) as [d|].
  - split; eauto.
  - destruct (scan_lines (rev (split nl narrative)));
      split; try discriminate; intros [d H]; discriminate.
Qed.

(** C3, as amended. Fallback extraction: when the primary pattern is
    absent, the lines are visited from the last to the first, and the
    score is the first character 0 to 4 of the last line that holds a
    keyword and such a character, whether or not that character stands
    alone. *)
Theorem fallback_extraction narrative before line after p d q :
  ~ primary_present narrative ->
  split nl narrative = before ++ line :: after ->
  has_keyword line = true ->
  line = p ++ d :: q ->
  Forall (fun c => Re.in_0_4 c = false) p ->
  Re.in_0_4 d = true ->
  Forall silent after ->
  parse narrative = (int_of_digit d, strip narrative) /\
  fst (extract (strip narrative)) = Fallback.
Proof.
  intros Habs Hsplit Hkw -> Hp Hd Hafter.
  apply primary_absent_iff in Habs.
  rewrite parse_unfold, extract_strip. unfold extract.
  rewrite Habs, Hsplit.
  rewrite (scan_lines_stops before (p ++ d :: q) after d); [auto| |exact Hafter].
  unfold hit. rewrite Hkw. now apply first_digit_search.
Qed.

Lemma fallback_extraction_witness :
  parse fallback_example = (3%Z, strip fallback_example) /\
  fst (extract (strip fallback_example)) = Fallback.
Proof.
  apply (fallback_extraction fallback_example
           [of_string "Amount Match: Yes"]
           (of_string "Result line: the final score is 3 out of 4")
           [[]]
           (of_string "Result line: the final score is ") 51%N
           (of_string " out of 4")).
  - apply primary_absent_iff. vm_compute. reflexivity.
  - reflexivity.
  - reflexivity.
  - reflexivity.
  - repeat constructor.
  - reflexivity.
  - constructor; [|constructor]. intros H. constructor.
Defined.

(** The narrative of the specification's example, with any text before
    its last line. *)
Lemma result_line_scores_3 before_text :
  ~ primary_present (before_text ++ nl :: result_line ++ [nl]) ->
  fst (parse (before_text ++ nl :: result_line ++ [nl])) = 3%Z.
Proof.
  intros Habs. apply primary_absent_iff in Habs.
  rewrite parse_unfold. unfold extract. rewrite Habs.
  destruct (split_app nl before_text (nl :: result_line ++ [nl]))
    as (init & la & hb & tb & Ea & Eb & Eab).
  assert (Elast : split nl (nl :: result_line ++ [nl]) = [[]; result_line; []])
    by reflexivity.
  rewrite Elast in Eb. injection Eb as <- <-. rewrite Eab.
  change (init ++ (la ++ []) :: [result_line; []])
    with (init ++ [la ++ []] ++ result_line :: [[]]).
  rewrite app_assoc.
  rewrite (scan_lines_stops _ result_line [[]] 51%N); [reflexivity | reflexivity |].
  constructor; [intros H; constructor | constructor].
Qed.

(** C3, as stated, fails: on a keyword line the code takes the first
    character 0 to 4 even inside a longer number, where the first
    standalone digit is another one. *)
Lemma fallback_digit_not_standalone :
  ~ (forall narrative,
       ~ primary_present narrative ->
       fst (parse narrative) = SpecWording.fallback_score narrative).
Proof.
  intros H. specialize (H year_sample).
  assert (Habs : ~ primary_present year_sample)
    by (apply primary_absent_iff; vm_compute; reflexivity).
  specialize (H Habs). vm_compute in H. discriminate.
Qed.

Example year_sample_scores :
  fst (parse year_sample) = 2%Z /\
  SpecWording.fallback_score year_sample = 3%Z.
Proof. split; vm_compute; reflexivity. Qed.

(** C4, as amended. The report is the narrative without its leading and
    trailing white space, and nothing else of it is changed, whichever
    branch assigned the score. *)
Theorem report_is_stripped_narrative narrative :
  snd (parse narrative) = strip narrative /\
  (exists pre suf,
     narrative = pre ++ snd (parse narrative) ++ suf /\
     all_space pre /\ all_space suf) /\
  (forall c, hd_error (snd (parse narrative)) = Some c -> is_space c = false) /\
  (forall c, hd_error (rev (snd (parse narrative))) = Some c ->
             is_space c = false).
Proof.
  split; [reflexivity|]. split; [apply strip_split | apply strip_ends].
Qed.

(** C4, as stated, fails: a narrative that ends with a newline is not
    returned verbatim. *)
Lemma report_not_verbatim :
  ~ (forall narrative, snd (parse narrative) = narrative).
Proof.
  intros H. specialize (H trailing_newline_sample).
  vm_compute in H. discriminate.
Qed.

(** C9. The score of the parser is an integer from 0 to 4, for every
    narrative. *)
Theorem parse_score_range narrative :
  (0 <= fst (parse narrative) <= 4)%Z.
Proof.
  unfold parse. cbv zeta. simpl fst. unfold extract.
  destruct (Re.search_final_score (strip narrative)) as [d|] eqn:E1; simpl.
  - apply int_of_digit_range. eapply search_final_score_digit; eauto.
  - destruct (scan_lines (rev (split nl (strip narrative)))) as [d|] eqn:E2;
      simpl.
    + apply int_of_digit_range. eapply scan_lines_digit; eauto.
    + lia.
Qed.

(** C10. During the fallback loop a line with a keyword and no character
    0 to 4 does not stop the loop: the lines before it decide the score.
    The default is taken exactly when no line holds both a keyword and a
    character 0 to 4. *)
Theorem fallback_passes_silent_lines narrative :
  ~ primary_present narrative ->
  (forall before line after,
     split nl narrative = before ++ line :: after ->
     has_keyword line = true ->
     Forall (fun c => Re.in_0_4 c = false) line ->
     Forall silent after ->
     fst (parse narrative) =
     match scan_lines (rev before) with
     | Some d => int_of_digit d
     | None => 0%Z
     end) /\
  (fst (extract (strip narrative)) = Default <->
   Forall silent (split nl narrative)).
Proof.
  intros Habs. apply primary_absent_iff in Habs. split.
  - intros before line after Hsplit Hkw Hnone Hafter.
    rewrite parse_unfold. simpl fst. unfold extract.
    rewrite Habs, Hsplit, scan_lines_passes; [|now intros _|exact Hafter].
    destruct (scan_lines (rev before)); reflexivity.
  - rewrite extract_strip, <- scan_lines_rev_none. unfold extract.
    rewrite Habs. destruct (scan_lines (rev (split nl narrative)));
      simpl; split; intros K; try discriminate K; reflexivity.
Qed.

Lemma fallback_passes_silent_lines_witness :
  fst (parse pending_sample) = 2%Z.
Proof.
  refine (proj1 (fallback_passes_silent_lines pending_sample _)
            [of_string "score: 2"] (of_string "final result pending") []
            _ _ _ _).
  - apply primary_absent_iff. vm_compute. reflexivity.
  - reflexivity.
  - reflexivity.
  - repeat constructor.
  - constructor.
Defined.

(** * The service *)

Lemma validation_guard invoice_text sms_text :
  falsy (strip invoice_text) || falsy (strip sms_text) = true <->
  all_space invoice_text \/ all_space sms_text.
Proof. now rewrite orb_true_iff, !falsy_strip. Qed.

Lemma valid_documents invoice_text sms_text :
  ~ all_space invoice_text -> ~ all_space sms_text ->
  falsy (strip invoice_text) || falsy (strip sms_text) = false.
Proof.
  intros Hi Hs.
  destruct (falsy (strip invoice_text) || falsy (strip sms_text)) eqn:E;
    [|reflexivity].
  apply validation_guard in E. tauto.
Qed.

(** One run of [match_invoice]: one request, then the parser on the
    reply, or the exception of the service. *)
Lemma match_invoice_run prompt model image_text sms_text calls :
  match_invoice prompt model image_text sms_text calls =
  (match model calls (Request prompt image_text sms_text) with
   | Returned text => Returned (parse text)
   | Raised e => Raised e
   | RaisedBase b => RaisedBase b
   end,
   calls ++ [Request prompt image_text sms_text]).
Proof.
  unfold match_invoice, bind, generate_content_text, ret.
  now destruct (model calls (Request prompt image_text sms_text)).
Qed.

(** Without the handler the exception of the service is the outcome. *)
Lemma match_invoice_raises prompt model image_text sms_text calls e :
  model calls (Request prompt image_text sms_text) = Raised e ->
  fst (match_invoice prompt model image_text sms_text calls) = Raised e.
Proof. intros Hm. now rewrite match_invoice_run, Hm. Qed.

(** C5, as amended. When neither the primary pattern nor the fallback
    loop finds a digit, the score is 0 and the report is the narrative
    without its leading and trailing white space; the service returns
    this pair as an ordinary response, through neither the exception
    handler nor the validation branch. *)
Theorem parser_default narrative :
  ~ primary_present narrative ->
  Forall silent (split nl narrative) ->
  parse narrative = (0%Z, strip narrative) /\
  fst (extract (strip narrative)) = Default /\
  forall prompt model invoice_text sms_text calls,
    ~ all_space invoice_text -> ~ all_space sms_text ->
    model calls (Request prompt invoice_text sms_text) = Returned narrative ->
    process_and_display prompt model invoice_text sms_text calls =
    (Returned (0%Z, strip narrative),
     calls ++ [Request prompt invoice_text sms_text]).
Proof.
  intros Habs Hsil.
  apply primary_absent_iff in Habs. apply scan_lines_rev_none in Hsil.
  assert (E : extract narrative = (Default, 0%Z))
    by (unfold extract; now rewrite Habs, Hsil).
  assert (P : parse narrative = (0%Z, strip narrative))
    by (now rewrite parse_unfold, E).
  repeat split.
  - exact P.
  - now rewrite extract_strip, E.
  - intros prompt model invoice_text sms_text calls Hi Hs Hm.
    unfold process_and_display. rewrite valid_documents by assumption.
    unfold try_except, bind. now rewrite match_invoice_run, Hm, P.
Qed.

Lemma parser_default_witness :
  parse silent_sample = (0%Z, of_string "No verdict.").
Proof.
  refine (proj1 (parser_default silent_sample _ _)).
  - apply primary_absent_iff. vm_compute. reflexivity.
  - repeat constructor; intros H; vm_compute in H; discriminate.
Defined.

(** C5, as stated, fails: with no score-bearing line the report still
    loses the leading and trailing white space of the narrative. *)
Lemma default_report_not_verbatim :
  ~ (forall narrative,
       ~ primary_present narrative ->
       Forall silent (split nl narrative) ->
       parse narrative = (0%Z, narrative)).
Proof.
  intros H. specialize (H silent_sample).
  assert (Habs : ~ primary_present silent_sample)
    by (apply primary_absent_iff; vm_compute; reflexivity).
  assert (Hsil : Forall silent (split nl silent_sample))
    by (repeat constructor; intros K; vm_compute in K; discriminate).
  specialize (H Habs Hsil). vm_compute in H. discriminate.
Qed.

(** C6. When the invoice text or the SMS text is empty or white space
    only, the response is score 0 with the validation message, whatever
    the service would do, and no request is sent: the log of requests is
    the one the call started with. *)
Theorem validation_short_circuit prompt model invoice_text sms_text calls :
  all_space invoice_text \/ all_space sms_text ->
  process_and_display prompt model invoice_text sms_text calls =
  (Returned (0%Z, validation_message), calls).
Proof.
  intros H. apply validation_guard in H.
  unfold process_and_display. rewrite H. reflexivity.
Qed.

Lemma validation_short_circuit_witness :
  process_and_display [] (model_replies (of_string "FINAL SCORE: 4"))
    (of_string "Invoice 7, total 500.00") [] [] =
  (Returned (0%Z, validation_message), []).
Proof.
  apply validation_short_circuit. right. reflexivity.
Defined.




(** An exception outside class [Exception] leaves the operation as it
    came, after the one request. *)
Lemma base_exception_escapes prompt model invoice_text sms_text calls b :
  ~ all_space invoice_text -> ~ all_space sms_text ->
  model calls (Request prompt invoice_text sms_text) = RaisedBase b ->
  process_and_display prompt model invoice_text sms_text calls =
  (RaisedBase b, calls ++ [Request prompt invoice_text sms_text]).
Proof.
  intros Hi Hs Hm. unfold process_and_display.
  rewrite valid_documents by assumption.
  unfold try_except, bind. now rewrite match_invoice_run, Hm.
Qed.

(** C8, as amended. For all documents and every behaviour of the service
    that is a reply or a raised exception of class [Exception], the
    operation ends with a response: a score and a report.  Documents
    that fail validation get a response whatever the service would
    do. *)
Theorem process_and_display_responds
        prompt model invoice_text sms_text calls :
  (all_space invoice_text \/ all_space sms_text \/
   forall b, model calls (Request prompt invoice_text sms_text)
             <> RaisedBase b) ->
  exists score report calls',
    process_and_display prompt model invoice_text sms_text calls =
    (Returned (score, report), calls').
Proof.
  intros H. unfold process_and_display.
  destruct (falsy (strip invoice_text) || falsy (strip sms_text)) eqn:G.
  - now exists 0%Z, validation_message, calls.
  - assert (Hm : forall b, model calls (Request prompt invoice_text sms_text)
                           <> RaisedBase b).
    { destruct H as [H|[H|H]]; [| |exact H]; exfalso.
      - assert (K : falsy (strip invoice_text) || falsy (strip sms_text) = true)
          by (apply validation_guard; now left).
        congruence.
      - assert (K : falsy (strip invoice_text) || falsy (strip sms_text) = true)
          by (apply validation_guard; now right).
        congruence. }
    unfold try_except, bind. rewrite match_invoice_run.
    destruct (model calls (Request prompt invoice_text sms_text))
      as [text|e|b].
    + now exists (fst (parse text)), (snd (parse text)),
        (calls ++ [Request prompt invoice_text sms_text]).
    + now exists 0%Z, (error_prefix ++ message e),
        (calls ++ [Request prompt invoice_text sms_text]).
    + now destruct (Hm b).
Qed.

Lemma process_and_display_responds_witness :
  exists score report calls',
    process_and_display [] (model_raises (of_string "quota"))
      (of_string "inv") (of_string "sms") [] =
    (Returned (score, report), calls').
Proof.
  apply (process_and_display_responds [] (model_raises (of_string "quota"))
           (of_string "inv") (of_string "sms") []).
  right. right. intros b H. discriminate H.
Defined.

(** C8, as stated, fails: [except Exception] does not catch an exception
    outside class [Exception], which ends the operation without a
    response. *)
Lemma process_and_display_not_total : ~ always_responds.
Proof.
  intros H.
  destruct (H [] (model_interrupted (of_string "KeyboardInterrupt"))
              (of_string "inv") (of_string "sms") [])
    as (score & report & calls' & E).
  vm_compute in E. discriminate.
Qed.

(** * The Scoring Rule Engine *)

Import ScoringRuleEngine.

Example scenario_without_identifier :
  result_score (score jane_invoice jane_sms) = 3%Z.
Proof. reflexivity. Qed.

Example scenario_with_identifier :
  result_score (score jane_invoice_id jane_sms_id) = 4%Z.
Proof. reflexivity. Qed.

Example scenario_amount_differs :
  result_score (score jane_invoice_id jane_sms_450) = 0%Z.
Proof. reflexivity. Qed.

(** The score is not a sum of independent points: an identifier match
    adds nothing below tier 3. *)
Lemma tier_not_cumulative : tier true false false true = 1%Z.
Proof. reflexivity. Qed.

(** C1. The score follows the ordered tier table: 0 without an amount
    match; with an amount match, 1 when neither date nor name match, 2
    when exactly one of them matches, 3 when both match and no identifier
    does, 4 when all four match. *)
Theorem score_tier_table invoice sms :
  let r := score invoice sms in
  (amount_match invoice sms = false -> result_score r = 0%Z) /\
  (amount_match invoice sms = true ->
   date_match invoice sms = false -> name_match invoice sms = false ->
   result_score r = 1%Z) /\
  (amount_match invoice sms = true ->
   xorb (date_match invoice sms) (name_match invoice sms) = true ->
   result_score r = 2%Z) /\
  (amount_match invoice sms = true ->
   date_match invoice sms = true -> name_match invoice sms = true ->
   identifier_match invoice sms = false ->
   result_score r = 3%Z) /\
  (amount_match invoice sms = true ->
   date_match invoice sms = true -> name_match invoice sms = true ->
   identifier_match invoice sms = true ->
   result_score r = 4%Z).
Proof.
  cbv zeta. unfold score. simpl result_score.
  destruct (amount_match invoice sms), (date_match invoice sms),
    (name_match invoice sms), (identifier_match invoice sms);
    simpl; repeat split; intros; congruence.
Qed.

Lemma score_tier_table_witness :
  result_score (score jane_invoice jane_sms) = 3%Z.
Proof.
  refine (proj1 (proj2 (proj2 (proj2
            (score_tier_table jane_invoice jane_sms)))) _ _ _ _);
    reflexivity.
Defined.

(** * Further properties of the parser and of the service *)

Lemma rstrip_app_spaces y suf :
  all_space suf -> rstrip (y ++ suf) = rstrip y.
Proof.
  intros H. unfold rstrip. rewrite rev_app_distr.
  rewrite lstrip_all_space; [reflexivity | now apply all_space_rev].
Qed.

Lemma strip_padding pre s suf :
  all_space pre -> all_space suf -> strip (pre ++ s ++ suf) = strip s.
Proof.
  intros Hp Hs. unfold strip.
  rewrite lstrip_all_space by exact Hp.
  rewrite lstrip_app_spaces by exact Hs.
  destruct (lstrip s) as [|c r]; [reflexivity|].
  now apply rstrip_app_spaces.
Qed.

Lemma strip_idem s : strip (strip s) = strip s.
Proof.
  destruct (strip_split s) as (pre & suf & E & Hp & Hs).
  transitivity (strip (pre ++ strip s ++ suf)).
  - symmetry. now apply strip_padding.
  - now rewrite <- E.
Qed.

Lemma extract_padding pre s suf :
  all_space pre -> all_space suf -> extract (pre ++ s ++ suf) = extract s.
Proof.
  intros Hp Hs. unfold extract.
  rewrite search_final_score_spaces_app by exact Hp.
  rewrite search_final_score_app_spaces by exact Hs.
  rewrite scan_lines_spaces_app by exact Hp.
  now rewrite scan_lines_app_spaces by exact Hs.
Qed.

Lemma extract_score_range text : (0 <= snd (extract text) <= 4)%Z.
Proof.
  unfold extract.
  destruct (Re.search_final_score text) as [d|] eqn:E1; simpl.
  - apply int_of_digit_range. eapply search_final_score_digit; eauto.
  - destruct (scan_lines (rev (split nl text))) as [d|] eqn:E2; simpl.
    + apply int_of_digit_range. eapply scan_lines_digit; eauto.
    + lia.
Qed.

(** A character of a line is a character of the text. *)
Lemma split_In sep s : forall line c,
  In line (split sep s) -> In c line -> In c s.
Proof.
  induction s as [|a s IH]; intros line c Hl Hc; simpl in Hl.
  - destruct Hl as [<-|[]]. destruct Hc.
  - destruct (a =? sep)%N.
    + destruct Hl as [<-|Hl]; [destruct Hc|]. right. eapply IH; eauto.
    + destruct (split sep s) as [|l ls].
      * destruct Hl as [<-|[]]. destruct Hc as [<-|[]]. now left.
      * destruct Hl as [<-|Hl].
        -- destruct Hc as [<-|Hc]; [now left|].
           right. apply (IH l); [now left | exact Hc].
        -- right. apply (IH line); [now right | exact Hc].
Qed.

Lemma scan_lines_some ls d :
  scan_lines ls = Some d ->
  exists line, In line ls /\ has_keyword line = true /\
               Re.search_digit line = Some d.
Proof.
  induction ls as [|l ls IH]; simpl; [discriminate|].
  destruct (has_keyword l) eqn:Hk.
  - destruct (Re.search_digit l) as [d'|] eqn:Hd.
    + intros [= <-]. exists l. auto.
    + intros H. destruct (IH H) as (line & Hin & R). exists line. auto.
  - intros H. destruct (IH H) as (line & Hin & R). exists line. auto.
Qed.

Lemma lower_keyword_letters kw v :
  Forall2 keyword_letter kw v -> lower v = kw.
Proof.
  unfold lower. induction 1 as [|k c kw v [Hk Hc] _ IH]; [reflexivity|].
  simpl. rewrite IH. unfold lower_char.
  destruct Hc as [->|<-].
  - destruct (N.leb_spec 65%N k), (N.leb_spec k 90%N); simpl; try lia;
      destruct (N.eqb_spec k 0x130%N); try lia;
      destruct (N.eqb_spec k 0x212A%N); try lia; reflexivity.
  - destruct (N.leb_spec 65%N c), (N.leb_spec c 90%N); simpl; try lia.
    reflexivity.
Qed.

(** X1. White space around the reply changes nothing: a reply padded
    with white space before and after gives the same score and the same
    report as the reply itself. *)
Theorem parse_padding pre narrative suf :
  all_space pre -> all_space suf ->
  parse (pre ++ narrative ++ suf) = parse narrative.
Proof.
  intros Hp Hs. rewrite !parse_unfold.
  now rewrite extract_padding, strip_padding.
Qed.

Lemma parse_padding_witness :
  parse (blank_sample ++ primary_sample ++ blank_sample) = parse primary_sample.
Proof.
  apply (parse_padding blank_sample primary_sample blank_sample);
    reflexivity.
Defined.

(** X2. Parsing the report again gives the same score and the same
    report: the report of the parser is a fixed point of the parser. *)
Theorem parse_report_again narrative :
  parse (snd (parse narrative)) = parse narrative.
Proof.
  rewrite (parse_unfold narrative). simpl snd.
  rewrite parse_unfold. now rewrite extract_strip, strip_idem.
Qed.

(** X3. A reply that is empty or white space only gives score 0 and an
    empty report. *)
Theorem parse_blank narrative :
  all_space narrative -> parse narrative = (0%Z, []).
Proof.
  intros H. apply strip_nil_iff in H. unfold parse. cbv zeta.
  rewrite H. reflexivity.
Qed.

Lemma parse_blank_witness : parse blank_sample = (0%Z, []).
Proof. apply parse_blank. reflexivity. Defined.

(** X4. The parser invents no score: a score other than 0 is the value
    of a character 1 to 4 that occurs in the reply. *)
Theorem score_occurs_in_reply narrative :
  fst (parse narrative) <> 0%Z ->
  exists d, In d narrative /\ Re.in_0_4 d = true /\
            int_of_digit d = fst (parse narrative).
Proof.
  rewrite parse_unfold. simpl fst. unfold extract.
  destruct (Re.search_final_score narrative) as [d|] eqn:E1.
  - intros _. exists d. simpl. repeat split.
    + destruct (search_final_score_inv _ _ E1) as (pre & rest & -> & Hm).
      destruct (match_final_score_inv _ _ Hm) as (lit & ws & post & -> & _).
      rewrite !in_app_iff. right. right. right. now left.
    + eapply search_final_score_digit; eauto.
  - destruct (scan_lines (rev (split nl narrative))) as [d|] eqn:E2.
    + intros _. exists d. simpl.
      destruct (scan_lines_some _ _ E2) as (line & Hin & _ & Hd).
      apply find_some in Hd as [Hd1 Hd2]. repeat split; [|exact Hd2].
      apply in_rev in Hin. eapply split_In; eauto.
    + simpl. congruence.
Qed.

Lemma score_occurs_in_reply_witness :
  exists d, In d primary_sample /\ Re.in_0_4 d = true /\
            int_of_digit d = fst (parse primary_sample).
Proof.
  apply (score_occurs_in_reply primary_sample).
  vm_compute. discriminate.
Defined.

(** X5. The primary pattern is accepted in every mix of upper and lower
    case: wherever such a spelling of "FINAL SCORE:", white space and a
    digit 0 to 4 occur, the primary branch assigns the score, and it is
    that digit when no occurrence starts earlier. *)
Theorem primary_any_case narrative pre lit ws d post :
  narrative = pre ++ lit ++ ws ++ d :: post ->
  Forall2 same_letter Re.FINAL_SCORE lit ->
  all_space ws ->
  Re.in_0_4 d = true ->
  fst (extract (strip narrative)) = Primary /\
  (none_starts_before (List.length pre) narrative ->
   fst (parse narrative) = int_of_digit d).
Proof.
  intros -> Hl Hw Hd.
  assert (Ho : occurrence lit ws d)
    by (constructor; [now apply spells_same_letter | exact Hw | exact Hd]).
  split.
  - rewrite extract_strip. unfold extract.
    destruct (Re.search_final_score (pre ++ lit ++ ws ++ d :: post)) eqn:E;
      [reflexivity|].
    pose proof (search_final_score_none _ E pre _ eq_refl) as H.
    rewrite (match_final_score_occurrence _ _ _ post Ho) in H. discriminate.
  - intros Hleft. rewrite parse_unfold. simpl fst. unfold extract.
    now rewrite (search_final_score_leftmost _ _ _ _ _ Ho Hleft).
Qed.

Lemma primary_any_case_witness :
  fst (extract (strip mixed_case_sample)) = Primary /\
  fst (parse mixed_case_sample) = 1%Z.
Proof.
  assert (F : Forall2 same_letter Re.FINAL_SCORE (of_string "fInAl ScOrE:")).
  { unfold Re.FINAL_SCORE, of_string. simpl.
    repeat (apply Forall2_cons;
            [first [left; reflexivity | right; split; [lia | reflexivity]] | ]).
    apply Forall2_nil. }
  destruct (primary_any_case mixed_case_sample
              (of_string "Verdict. ") (of_string "fInAl ScOrE:")
              [nl; 32%N] 49%N (of_string " (of 4)")
              eq_refl F eq_refl eq_refl) as [H1 H2].
  split; [exact H1|]. apply H2.
  apply none_starts_before_check. intros k Hk.
  do 9 (destruct k as [|k]; [vm_compute; reflexivity|]).
  simpl in Hk. lia.
Defined.

(** X6. A line is a keyword line as soon as it holds "score", "final" or
    "result" in any mix of upper and lower case, also inside a longer
    word. *)
Theorem keyword_any_case kw v a b :
  In kw keywords ->
  Forall2 keyword_letter kw v ->
  has_keyword (a ++ v ++ b) = true.
Proof.
  intros Hin Hv. apply has_keyword_spec.
  exists kw, (lower a), (lower b). split; [exact Hin|].
  now rewrite !lower_app, (lower_keyword_letters _ _ Hv).
Qed.

Lemma keyword_any_case_witness : has_keyword keyword_sample = true.
Proof.
  apply (keyword_any_case (of_string "result") (of_string "RESULT")
           (of_string "Preliminary ") (of_string "S follow")).
  - right. right. left. reflexivity.
  - unfold of_string. simpl.
    repeat (apply Forall2_cons; [split; [lia | right; reflexivity] | ]).
    apply Forall2_nil.
Defined.

(** X7. For documents that pass validation the operation sends exactly
    one request, whatever the service does with it; the request carries
    the prompt and the two documents as they were given, white space
    included, and the requests sent before are kept. *)
Theorem one_request_per_call prompt model invoice_text sms_text calls :
  ~ all_space invoice_text -> ~ all_space sms_text ->
  snd (process_and_display prompt model invoice_text sms_text calls) =
  calls ++ [Request prompt invoice_text sms_text].
Proof.
  intros Hi Hs. unfold process_and_display.
  rewrite valid_documents by assumption.
  unfold try_except, bind. rewrite match_invoice_run.
  now destruct (model calls (Request prompt invoice_text sms_text)).
Qed.

Lemma one_request_per_call_witness :
  snd (process_and_display [] (model_raises (of_string "timeout"))
         (of_string " inv ") (of_string "sms") []) =
  [Request [] (of_string " inv ") (of_string "sms")].
Proof.
  apply (one_request_per_call [] (model_raises (of_string "timeout"))
           (of_string " inv ") (of_string "sms") []).
  - intros H. vm_compute in H. discriminate.
  - intros H. vm_compute in H. discriminate.
Defined.

(** X8. Every response of the operation carries a score from 0 to 4,
    whatever the documents and whatever the service does; and there is
    such a response whenever the service replies or raises an exception
    of class [Exception]. *)
Theorem response_score_range prompt model invoice_text sms_text calls :
  (forall score report,
     fst (process_and_display prompt model invoice_text sms_text calls) =
     Returned (score, report) ->
     (0 <= score <= 4)%Z) /\
  ((forall b, model calls (Request prompt invoice_text sms_text)
              <> RaisedBase b) ->
   exists score report,
     fst (process_and_display prompt model invoice_text sms_text calls) =
     Returned (score, report) /\
     (0 <= score <= 4)%Z).
Proof.
  assert (R : forall text, (0 <= fst (parse text) <= 4)%Z).
  { intros text. unfold parse. cbv zeta. simpl fst.
    apply extract_score_range. }
  unfold process_and_display.
  destruct (falsy (strip invoice_text) || falsy (strip sms_text)).
  - split.
    + simpl. intros score report [= <- <-]. lia.
    + intros _. exists 0%Z, validation_message. simpl.
      split; [reflexivity | lia].
  - unfold try_except, bind. rewrite match_invoice_run.
    destruct (model calls (Request prompt invoice_text sms_text))
      as [text|e|b]; simpl.
    + split.
      * intros score report [= <- <-]. apply R.
      * intros _. exists (fst (parse text)), (snd (parse text)).
        split; [reflexivity | apply R].
    + split.
      * intros score report [= <- <-]. lia.
      * intros _. exists 0%Z, (error_prefix ++ message e).
        split; [reflexivity | lia].
    + split.
      * intros score report H. discriminate H.
      * intros H. now destruct (H b).
Qed.

Lemma response_score_range_witness :
  exists score report,
    fst (process_and_display [] (model_replies primary_sample)
           (of_string "inv") (of_string "sms") []) =
    Returned (score, report) /\
    (0 <= score <= 4)%Z.
Proof.
  apply (proj2 (response_score_range [] (model_replies primary_sample)
                  (of_string "inv") (of_string "sms") [])).
  intros b H. discriminate H.
Defined.

(** X9. For documents that pass validation and a service that answers,
    the response is the result of the parser on the reply: the wrapper
    changes neither the score nor the report. *)
Theorem answered_response_is_parse
        prompt model invoice_text sms_text calls text :
  ~ all_space invoice_text -> ~ all_space sms_text ->
  model calls (Request prompt invoice_text sms_text) = Returned text ->
  fst (process_and_display prompt model invoice_text sms_text calls) =
  Returned (parse text).
Proof.
  intros Hi Hs Hm. unfold process_and_display.
  rewrite valid_documents by assumption.
  unfold try_except, bind. rewrite match_invoice_run, Hm.
  now destruct (parse text).
Qed.

Lemma answered_response_is_parse_witness :
  fst (process_and_display [] (model_replies primary_sample)
         (of_string "inv") (of_string "sms") []) =
  Returned (2%Z, primary_sample).
Proof.
  apply (answered_response_is_parse [] (model_replies primary_sample)
           (of_string "inv") (of_string "sms") [] primary_sample).
  - intros H. vm_compute in H. discriminate.
  - intros H. vm_compute in H. discriminate.
  - reflexivity.
Defined.
